(** * A shallow embedding of [deepcsf/reports/resnet_plot.py]

    The module reduces contrast-sensitivity test results (one trial matrix per
    CSV file, one directory per colour channel) to per-wave sensitivity curves,
    maps waves to spatial frequencies, interpolates the curves on a uniform
    grid, compares them with a reference CSF and draws them.

    Numbers are modelled in three ways, each where it fits the property:
    - [PyNum]: Python floats and NumPy [float64] scalars, both IEEE binary64
      (the kernel's primitive floats); they differ only in division by zero,
      which raises [ZeroDivisionError] for Python floats and yields an
      infinity for NumPy scalars;
    - [Q]: exact rational arithmetic, for the list algorithms (unique, last row
      per wave, [np.arange], [np.interp]) whose structure does not depend on
      rounding;
    - [R]: real numbers, for the Pearson correlation, which needs a square
      root. *)

From Stdlib Require Import String.
From Stdlib Require Import List Bool ZArith Lia.
From Stdlib Require Import Floats.
From Stdlib Require Import QArith Qround.
From Stdlib Require Import Sorting.Sorted Permutation.
From Stdlib Require Import Reals Lra Psatz.
Import ListNotations.

(** ** Python exceptions and a small result monad *)

Inductive pyexc :=
| ZeroDivisionError
| IndexError
| ValueError
| ParseError.

Inductive result (A : Type) :=
| Ok (a : A)
| Err (e : pyexc).
Arguments Ok {A} a.
Arguments Err {A} e.

Definition bind {A B} (m : result A) (k : A -> result B) : result B :=
  match m with
  | Ok a => k a
  | Err e => Err e
  end.

Notation "x <- m ;; k" := (bind m (fun x => k))
  (at level 61, m at next level, right associativity).

Fixpoint mapM {A B} (f : A -> result B) (l : list A) : result (list B) :=
  match l with
  | [] => Ok []
  | x :: l' => y <- f x ;; ys <- mapM f l' ;; Ok (y :: ys)
  end.

(** ** Python floats and NumPy scalars *)

Module PyNum.

Open Scope float_scope.

(** A Python [float] or a NumPy [float64] scalar (the elements of a NumPy
    array, e.g. of the result of [np.unique]). *)
Inductive num :=
| PyF (f : float)
| NpF (f : float).

Definition val (x : num) : float :=
  match x with PyF f => f | NpF f => f end.

(** [x / y]: Python raises on a zero divisor (also [-0.0]); as soon as one
    operand is a NumPy scalar the division is NumPy's, IEEE, never raising. *)
Definition div (x y : num) : result num :=
  match x, y with
  | PyF a, PyF b => if PrimFloat.is_zero b then Err ZeroDivisionError
                    else Ok (PyF (a / b))
  | _, _ => Ok (NpF (val x / val y))
  end.

Definition mul (x y : num) : num :=
  match x, y with
  | PyF a, PyF b => PyF (a * b)
  | _, _ => NpF (val x * val y)
  end.

(** [np.pi] is the Python float closest to pi. *)
Definition np_pi_f : float := 0x1.921fb54442d18p+1.
Definition np_pi : num := PyF np_pi_f.

(** The integer literals [1] and [2] of the source, promoted to float. *)
Definition one : num := PyF 1.
Definition two : num := PyF 2.

(** [def wave2sf(wave, target_size):
        base_sf = ((target_size / 2) / np.pi)
        return [((1 / e) * base_sf) for e in wave]] *)
Definition wave2sf (wave : list num) (target_size : num) : result (list num) :=
  h <- div target_size two ;;
  base_sf <- div h np_pi ;;
  mapM (fun e => r <- div one e ;; Ok (mul r base_sf)) wave.

(** An infinity or a NaN. *)
Definition nonfinite (f : float) : bool :=
  match Prim2SF f with
  | S754_infinity _ | S754_nan => true
  | _ => false
  end.

Definition is_np (x : num) : bool :=
  match x with NpF _ => true | PyF _ => false end.

End PyNum.

(** ** Trial matrices and sensitivity extraction, over exact rationals *)

Module Trial.

Open Scope Q_scope.

(** One row of a trial matrix: columns [contrast, wave, angle, phase, side]. *)
Record row := mkRow {
  contrast : Q;
  wave : Q;
  angle : Q;
  phase : Q;
  side : Q
}.

Definition matrix := list row.

(** Ascending sort, as [np.sort] (an insertion sort; equal keys are equal
    numbers, so the order among them does not matter). *)
Fixpoint insert (x : Q) (l : list Q) : list Q :=
  match l with
  | [] => [x]
  | y :: l' => if Qle_bool x y then x :: l else y :: insert x l' end.

Fixpoint sort (l : list Q) : list Q :=
  match l with
  | [] => []
  | x :: l' => insert x (sort l')
  end.

(** The mask [aux[1:] != aux[:-1]] of [np.unique]: keep an element when it
    differs from its predecessor. *)
Fixpoint keep_changes (prev : Q) (l : list Q) : list Q :=
  match l with
  | [] => []
  | y :: l' => (if Qeq_bool y prev then [] else [y]) ++ keep_changes y l'
  end.

(** [np.unique]: sort, then keep the first element and every element that
    differs from the one before it. *)
Definition unique (l : list Q) : list Q :=
  match sort l with
  | [] => []
  | x :: l' => x :: keep_changes x l'
  end.

(** Python's [a[-1]]; [None] stands for the [IndexError] on an empty array. *)
Fixpoint last_opt {A} (l : list A) : option A :=
  match l with
  | [] => None
  | [x] => Some x
  | _ :: l' => last_opt l'
  end.

(** [result_mat[:, 1]] *)
Definition waves (m : matrix) : list Q := map wave m.

(** [def _extract_sensitivity(result_mat):
        unique_waves = np.unique(result_mat[:, 1])
        csf_inds = []
        for wave in unique_waves:
            lowest_contrast = result_mat[result_mat[:, 1] == wave][-1]
            csf_inds.append(1 / lowest_contrast[0])
        return csf_inds] *)
Definition _extract_sensitivity (m : matrix) : result (list Q) :=
  mapM (fun w =>
          match last_opt (filter (fun r => Qeq_bool (wave r) w) m) with
          | Some lowest_contrast => Ok (1 / contrast lowest_contrast)
          | None => Err IndexError
          end)
       (unique (waves m)).

End Trial.

(** ** Frequency mapping, uniform grid and summary records, over exact rationals *)

Module Freq.
Import Trial.
Open Scope Q_scope.

(** The exact value of the binary64 number [np.pi] (0x1.921fb54442d18p+1). *)
Definition np_pi : Q := 884279719003555 # 281474976710656.

(** [wave2sf], evaluated exactly. *)
Definition wave2sf (wave : list Q) (target_size : Q) : list Q :=
  let base_sf := (target_size / 2) / np_pi in
  map (fun e => (1 / e) * base_sf) wave.

(** [np.arange(start, stop, step)]: [ceil((stop - start) / step)] elements
    (none when that is not positive), the [i]-th being [start + i * step]. *)
Definition arange (start stop step : Q) : list Q :=
  map (fun i => start + inject_Z (Z.of_nat i) * step)
      (seq 0 (Z.to_nat (Qceiling ((stop - start) / step)))).

(** One query of [np.interp(x, xp, fp)] on the sample points [combine xp fp],
    for increasing [xp] (which [np.interp] requires and does not check):
    [fp[0]] left of [xp[0]], [fp[-1]] right of [xp[-1]], [fp[j]] at
    [x == xp[j]], and [slope * (x - xp[j]) + fp[j]] on [xp[j] < x < xp[j+1]]. *)
Fixpoint interp_from (x : Q) (pts : list (Q * Q)) : Q :=
  match pts with
  | [] => 0
  | [(_, ya)] => ya
  | (xa, ya) :: (((xb, yb) :: _) as rest) =>
      if Qlt_le_dec x xb then
        if Qeq_bool x xa then ya
        else ((yb - ya) / (xb - xa)) * (x - xa) + ya
      else interp_from x rest
  end.

Definition interp1 (x : Q) (pts : list (Q * Q)) : Q :=
  match pts with
  | [] => 0
  | (x0, y0) :: _ => if Qlt_le_dec x x0 then y0 else interp_from x pts
  end.

(** [np.interp(x, xp, fp)]: [ValueError] on empty sample points or on
    sample arrays of different lengths. *)
Definition interp (xs xp fp : list Q) : result (list Q) :=
  match xp with
  | [] => Err ValueError
  | _ => if Nat.eqb (length xp) (length fp)
         then Ok (map (fun x => interp1 x (combine xp fp)) xs)
         else Err ValueError
  end.

(** [def uniform_sfs(xvals, yvals, target_size):
        max_xval = (target_size / 2)
        base_sf = max_xval / np.pi
        new_xs = [base_sf / e for e in np.arange(1, max_xval + 0.5, 0.5)]
        new_ys = np.interp(new_xs, xvals, yvals)
        return new_xs, new_ys] *)
Definition grid_steps (target_size : Q) : list Q :=
  arange 1 (target_size / 2 + (1#2)) (1#2).

Definition uniform_sfs (xvals yvals : list Q) (target_size : Q)
  : result (list Q * list Q) :=
  let max_xval := target_size / 2 in
  let base_sf := max_xval / np_pi in
  let new_xs := map (fun e => base_sf / e) (arange 1 (max_xval + (1#2)) (1#2)) in
  new_ys <- interp new_xs xvals yvals ;;
  Ok (new_xs, new_ys).

(** The summary record of one test ([accuracies] and [contrasts_waves] stay
    empty in the source and are left out). *)
Record summary := mkSummary {
  up_wave : list Q;
  up_sf : list Q;
  up_sf_int : list Q;
  sens_all : list Q;
  sens_all_int : list Q
}.

Definition halve (l : list Q) : list Q := map (fun x => x / 2) l.

(** [_extract_data(result_mat, target_size)] *)
Definition _extract_data (m : matrix) (target_size : Q) : result summary :=
  let wave := unique (waves m) in
  let sf := halve (wave2sf wave target_size) in
  all <- _extract_sensitivity m ;;
  r <- uniform_sfs wave all target_size ;;
  let '(int_xvals, int_yvals) := r in
  Ok {| up_wave := wave; up_sf := sf;
        up_sf_int := halve (wave2sf int_xvals target_size);
        sens_all := all; sens_all_int := int_yvals |}.

End Freq.

(** ** Normalisation of a sensitivity curve ([org_yvals /= org_yvals.max()]) *)

Module Norm.

(** [np.maximum] on two floats, as the [max] reduction applies it: a NaN
    operand wins. *)
Definition np_maximum (a b : float) : float :=
  if (PrimFloat.leb b a || PrimFloat.is_nan a)%bool then a else b.

(** [x.max()]: [ValueError] on an empty array. *)
Definition np_max (l : list float) : result float :=
  match l with
  | [] => Err ValueError
  | x :: r => Ok (fold_left np_maximum r x)
  end.

(** [x /= x.max()] *)
Definition normalise (l : list float) : result (list float) :=
  m <- np_max l ;; Ok (map (fun x => PrimFloat.div x m) l).




End Norm.

(** ** The reference comparison of [_plot_chn_csf], over the reals *)

Module Compare.
Open Scope R_scope.


Definition r_maximum (a b : R) : R := if Rle_dec b a then a else b.

Definition np_max (l : list R) : result R :=
  match l with
  | [] => Err ValueError
  | x :: r => Ok (fold_left r_maximum r x)
  end.

Definition normalise (l : list R) : result (list R) :=
  m <- np_max l ;; Ok (map (fun x => x / m) l).






End Compare.

(** ** Area labels and the loading of results *)

Module Loader.
Open Scope string_scope.

(** Python's [needle in haystack] on strings. *)
Fixpoint contains (needle hay : string) : bool :=
  (prefix needle hay ||
   match hay with
   | EmptyString => false
   | String _ rest => contains needle rest
   end)%bool.

(** ['area%d' % area_ind] for a one-digit index. *)
Definition area_label (i : nat) : string :=
  "area" ++ String (Ascii.ascii_of_nat (48 + i)) "".

Fixpoint area_loop (inds : list nat) (file_name : string) : option string :=
  match inds with
  | [] => None
  | i :: rest =>
      if contains (area_label i) file_name then Some (area_label i)
      else area_loop rest file_name
  end.

(** [def _area_name_from_path(file_name):
        for area_ind in range(5): ...] *)
Definition _area_name_from_path (file_name : string) : option string :=
  area_loop (seq 0 5) file_name.

(** The directory tree under [path], as the two [glob] calls see it:
    [channel_dirs] the channel names of [sorted(glob.glob(path + '/*/'))],
    [csv_files c] the pairs (file name, [np.loadtxt] outcome) of
    [sorted(glob.glob(chns_dir + '*.csv'))]. *)
Record fs := mkFs {
  channel_dirs : list string;
  csv_files : string -> list (string * result Trial.matrix)
}.

Definition result_set := list (string * list (Trial.matrix * option string)).

(** [d[k] = v] on a Python dict kept as an association list in insertion
    order: an existing key keeps its place. *)
Fixpoint dict_set {V} (d : list (string * V)) (k : string) (v : V) : list (string * V) :=
  match d with
  | [] => [(k, v)]
  | (k', v') :: d' => if String.eqb k k' then (k, v) :: d' else (k', v') :: dict_set d' k v
  end.

Definition mem (x : string) (l : list string) : bool := existsb (String.eqb x) l.

Definition load_channel (f : fs) (chn_name : string)
  : result (list (Trial.matrix * option string)) :=
  mapM (fun '(file_name, parsed) =>
          let area_name := _area_name_from_path file_name in
          mat <- parsed ;; Ok (mat, area_name))
       (csv_files f chn_name).

(** [chns is not None and chn_name not in chns] *)
Definition skip (chns : option (list string)) (chn_name : string) : bool :=
  match chns with
  | Some l => negb (mem chn_name l)
  | None => false
  end.

Fixpoint load_loop (f : fs) (chns : option (list string)) (dirs : list string)
  (net_results : result_set) : result result_set :=
  match dirs with
  | [] => Ok net_results
  | chn_name :: rest =>
      if skip chns chn_name then load_loop f chns rest net_results
      else
        chn_res <- load_channel f chn_name ;;
        (* if results were read add it to dictionary *)
        load_loop f chns rest
          (if Nat.ltb 0 (length chn_res)
           then dict_set net_results chn_name chn_res else net_results)
  end.

(** [_load_network_results(path, chns=None)] *)
Definition _load_network_results (f : fs) (chns : option (list string)) : result result_set :=
  load_loop f chns (channel_dirs f) [].

End Loader.

(** ** Summaries of all channels and the rendering loop *)

Module Render.

(** [_extract_network_summary(net_results, target_size)] *)
Definition _extract_network_summary (net_results : Loader.result_set) (target_size : Q)
  : result (list (string * list (Freq.summary * option string))) :=
  mapM (fun '(chn_name, chn_data) =>
          tests <- mapM (fun '(mat, area) =>
                           s <- Freq._extract_data mat target_size ;; Ok (s, area))
                        chn_data ;;
          Ok (chn_name, tests))
       net_results.

(** What a subplot holds: its title and its lines, in drawing order. A line is
    the dashed reference curve ([label='human']) or a channel curve, whose label
    carries the [r=... | d=...] scores or not. The plotted numbers are left
    out. *)
Inductive line :=
| RefLine
| ChnLine (chn : string) (scored : bool).

Record axis := mkAxis {
  ax_title : option string;
  ax_lines : list line
}.

(** [fig.axes] *)
Definition figure := list axis.

(** The lines one test adds: with a [model_name] the reference curve, then the
    channel curve with its scores; without, the channel curve alone. *)
Definition new_lines (chn_name : string) (model_name : option string) : list line :=
  match model_name with
  | Some _ => [RefLine; ChnLine chn_name true]
  | None => [ChnLine chn_name false]
  end.

Fixpoint list_set {A} (l : list A) (i : nat) (x : A) : list A :=
  match l, i with
  | [], _ => []
  | _ :: l', O => x :: l'
  | y :: l', S i' => y :: list_set l' i' x
  end.

(** The loop over the tests of [_plot_chn_csf]: with an [old_fig] the [i]-th
    existing subplot is reused ([fig.axes[i]], [IndexError] past the end),
    otherwise [fig.add_subplot(1, num_tests, i + 1)] appends a new one. *)
Fixpoint plot_tests (tests : list (Freq.summary * option string)) (i : nat)
  (chn_name : string) (model_name : option string) (old_fig : option figure)
  (fig : figure) : result figure :=
  match tests with
  | [] => Ok fig
  | (_, area) :: rest =>
      match old_fig with
      | Some _ =>
          match nth_error fig i with
          | None => Err IndexError
          | Some ax =>
              let ax' := mkAxis area (ax_lines ax ++ new_lines chn_name model_name) in
              plot_tests rest (S i) chn_name model_name old_fig (list_set fig i ax')
          end
      | None =>
          let ax' := mkAxis area (new_lines chn_name model_name) in
          plot_tests rest (S i) chn_name model_name old_fig (fig ++ [ax'])
      end
  end.

(** [_plot_chn_csf(chn_summary, chn_name, model_name=None, old_fig=None)] *)
Definition _plot_chn_csf (chn_summary : list (Freq.summary * option string))
  (chn_name : string) (model_name : option string) (old_fig : option figure)
  : result figure :=
  let fig := match old_fig with Some f => f | None => [] end in
  plot_tests chn_summary 0 chn_name model_name old_fig fig.

(** The keyword arguments [plot_csf_areas] passes on and overwrites. *)
Record kwargs := mkKwargs {
  kw_model_name : option string;
  kw_old_fig : option figure
}.

Fixpoint plot_loop (items : list (string * list (Freq.summary * option string)))
  (kw : kwargs) (net_csf_fig : option figure) : result (option figure) :=
  match items with
  | [] => Ok net_csf_fig
  | (chn_key, chn_val) :: rest =>
      let kw' := match net_csf_fig with
                 | Some f => mkKwargs None (Some f)
                 | None => kw
                 end in
      fig <- _plot_chn_csf chn_val chn_key (kw_model_name kw') (kw_old_fig kw') ;;
      plot_loop rest kw' (Some fig)
  end.

(** [plot_csf_areas(path, target_size, chns=None, **kwargs)] *)
Definition plot_csf_areas (f : Loader.fs) (target_size : Q) (chns : option (list string))
  (kw : kwargs) : result (option figure) :=
  net_results <- Loader._load_network_results f chns ;;
  net_summary <- _extract_network_summary net_results target_size ;;
  plot_loop net_summary kw None.

(** The reference curves and the scored channel curves of a figure. *)
Definition is_marked (l : line) : bool :=
  match l with RefLine => true | ChnLine _ scored => scored end.

Definition marked (fig : figure) : list line :=
  filter is_marked (flat_map ax_lines fig).

End Render.

(** ** The loader's invariant and a small directory tree *)

(** What every entry of the dictionary satisfies: it was loaded from a listed
    channel directory that passed the filter, and it holds at least one file. *)
Definition entry_ok (f : Loader.fs) (chns : option (list string)) (k : string)
  (v : list (Trial.matrix * option string)) : Prop :=
  Loader.load_channel f k = Ok v /\ v <> [] /\ Loader.skip chns k = false /\ In k (Loader.channel_dirs f).

(** One test: two trials at wave 4, the last one passed at contrast 0.1. *)
Definition demo_matrix : Trial.matrix :=
  [Trial.mkRow (1#2) 4 0 0 0; Trial.mkRow (1#10) 4 0 0 0]%Q.

(** Channel directories [lum], [rg], [yb] with one file each, and [empty] with
    none. *)
Definition demo_tree : Loader.fs :=
  Loader.mkFs ["lum"; "rg"; "yb"; "empty"]%string
    (fun d => if String.eqb d "empty" then []
              else [("test_area0.csv"%string, Ok demo_matrix)]).

(** The figure of the three loaded channels of [demo_tree]: one subplot, the
    reference curve and the scored curve of [lum] only. *)
Definition demo_figure : Render.figure :=
  [Render.mkAxis (Some "area0"%string)
     [Render.RefLine; Render.ChnLine "lum" true; Render.ChnLine "rg" false;
      Render.ChnLine "yb" false]].

(** ** Line style of a channel *)

Module Style.
Open Scope string_scope.

(** [def _chn_plot_params(chn_name)]: the legend label and the keyword
    arguments of [ax.plot], a dict kept as an association list in insertion
    order. *)
Definition _chn_plot_params (chn_name : string) : string * list (string * string) :=
  if Loader.mem chn_name ["lum"] then
    (chn_name, [("color", "gray"); ("marker", "x"); ("linestyle", "-")])
  else if String.eqb chn_name "rg" then
    ("rg   ", [("color", "green"); ("marker", "1"); ("linestyle", "-");
                ("markerfacecolor", "white"); ("markeredgecolor", "r")])
  else if String.eqb chn_name "yb" then
    ("yb   ", [("color", "blue"); ("marker", "2"); ("linestyle", "-");
                ("markerfacecolor", "white"); ("markeredgecolor", "y")])
  else (chn_name, []).

End Style.

(* ================================================================= *)
(** * Properties *)

(** ** Generic facts about [mapM] *)


Module TrialFacts.
Import Trial.
Open Scope Q_scope.

Lemma insert_perm x l : Permutation.Permutation (insert x l) (x :: l).
Proof.
  induction l as [|y l IH]; simpl; [constructor; constructor|].
  destruct (Qle_bool x y); [reflexivity|].
  eapply Permutation.perm_trans; [apply Permutation.perm_skip, IH|].
  apply Permutation.perm_swap.
Qed.

Lemma sort_perm l : Permutation.Permutation (sort l) l.
Proof.
  induction l as [|x l IH]; simpl; [constructor|].
  eapply Permutation.perm_trans; [apply insert_perm|].
  now apply Permutation.perm_skip.
Qed.

Lemma insert_sorted x l : Sorted Qle l -> Sorted Qle (insert x l).
Proof.
  induction 1 as [|y l Hs IH Hhd]; simpl; [repeat constructor|].
  case_eq (Qle_bool x y); intros Hxy.
  - apply Qle_bool_iff in Hxy. repeat constructor; auto.
  - assert (Hyx : y <= x).
    { apply Qlt_le_weak, Qnot_le_lt. intro H. apply Qle_bool_iff in H. congruence. }
    constructor; [exact IH|].
    destruct l as [|z l]; simpl; [constructor; exact Hyx|].
    inversion Hhd; subst.
    destruct (Qle_bool x z); constructor; auto.
Qed.

Lemma sort_sorted l : Sorted Qle (sort l).
Proof. induction l; simpl; [constructor|]. now apply insert_sorted. Qed.

Lemma keep_changes_sorted l x :
  Sorted Qle (x :: l) -> Sorted Qlt (x :: keep_changes x l).
Proof.
  revert x; induction l as [|a l IH]; intros x H; simpl; [repeat constructor|].
  inversion H as [|? ? Hs Hhd]; subst. inversion Hhd; subst.
  specialize (IH a Hs). inversion IH as [|? ? Hs' Hhd']; subst.
  case_eq (Qeq_bool a x); intros Hax; simpl.
  - constructor; [exact Hs'|].
    destruct (keep_changes a l) as [|b k]; constructor.
    inversion Hhd'; subst. eapply Qle_lt_trans; eassumption.
  - constructor; [exact IH|]. constructor.
    destruct (Qle_lteq x a) as [Hl _]. destruct (Hl H1) as [Hlt|Heq]; [exact Hlt|].
    exfalso. apply Qeq_sym, Qeq_bool_iff in Heq. congruence.
Qed.

Lemma keep_changes_in l x z : In z (keep_changes x l) -> In z l.
Proof.
  revert x; induction l as [|a l IH]; intros x Hz; simpl in *; [exact Hz|].
  apply in_app_or in Hz as [Hz|Hz].
  - destruct (Qeq_bool a x); simpl in Hz; [contradiction|]. destruct Hz as [<-|[]]; auto.
  - right. eapply IH; eassumption.
Qed.

Lemma keep_changes_cover l x y :
  In y l -> exists z, In z (x :: keep_changes x l) /\ y == z.
Proof.
  revert x y; induction l as [|a l IH]; intros x y Hy; [destruct Hy|].
  assert (Ha : exists z, In z (x :: keep_changes x (a :: l)) /\ a == z).
  { simpl. case_eq (Qeq_bool a x); intros Hax.
    - exists x. split; [now left|]. now apply Qeq_bool_iff.
    - exists a. split; [right; simpl; now left|]. apply Qeq_refl. }
  destruct Hy as [<-|Hy]; [exact Ha|].
  destruct (IH a y Hy) as [z [[<-|Hz] Hyz]].
  - destruct Ha as [z [Hz Haz]]. exists z. split; [exact Hz|].
    eapply Qeq_trans; eassumption.
  - exists z. split; [|exact Hyz]. right. simpl. apply in_or_app. now right.
Qed.

Lemma unique_sorted l : StronglySorted Qlt (unique l).
Proof.
  unfold unique. pose proof (sort_sorted l) as Hs.
  destruct (sort l) as [|x k]; [constructor|].
  apply Sorted_StronglySorted; [intros a b c; apply Qlt_trans|].
  now apply keep_changes_sorted.
Qed.

Lemma unique_in l z : In z (unique l) -> In z l.
Proof.
  unfold unique. intros Hz.
  apply (Permutation_in _ (sort_perm l)).
  destruct (sort l) as [|x k]; [destruct Hz|].
  destruct Hz as [<-|Hz]; [now left|]. right. eapply keep_changes_in; eassumption.
Qed.

Lemma unique_cover l y : In y l -> exists z, In z (unique l) /\ y == z.
Proof.
  intros Hy. apply (Permutation_in _ (Permutation_sym (sort_perm l))) in Hy.
  unfold unique. destruct (sort l) as [|x k]; [destruct Hy|].
  destruct Hy as [Hxy|Hy].
  - exists x. split; [now left|rewrite Hxy; apply Qeq_refl].
  - now apply keep_changes_cover.
Qed.





End TrialFacts.



(** ** Facts about the float model *)

Module PyNumFacts.
Import PyNum.
Open Scope float_scope.

Lemma div_val x y z : div x y = Ok z -> val z = val x / val y.
Proof.
  destruct x, y; simpl; try (intros [= <-]; reflexivity).
  destruct (PrimFloat.is_zero f0); [discriminate|]. now intros [= <-].
Qed.

Lemma div_err x y e : div x y = Err e ->
  e = ZeroDivisionError /\ exists a b, x = PyF a /\ y = PyF b /\ PrimFloat.is_zero b = true.
Proof.
  destruct x as [a|a], y as [b|b]; simpl; try discriminate.
  case_eq (PrimFloat.is_zero b); intros Hb; [|discriminate].
  intros [= <-]. split; [reflexivity|]. now exists a, b.
Qed.

Lemma div_nonzero x y : PrimFloat.is_zero (val y) = false ->
  div x y = Ok (match x, y with PyF _, PyF _ => PyF (val x / val y)
                              | _, _ => NpF (val x / val y) end).
Proof. destruct x, y; simpl; intros H; try rewrite H; reflexivity. Qed.

Lemma div_np x y : is_np y = true -> div x y = Ok (NpF (val x / val y)).
Proof. destruct x, y; simpl; (discriminate || reflexivity). Qed.

Lemma mul_val x y : val (mul x y) = val x * val y.
Proof. destruct x, y; reflexivity. Qed.

(** The base frequency [target_size / 2 / np.pi] never raises. *)
Lemma base_ok ts :
  exists b, (h <- div ts two ;; div h np_pi) = Ok b /\
            val b = (val ts / 2) / np_pi_f.
Proof.
  destruct ts as [t|t]; simpl; eexists; split; reflexivity.
Qed.

Lemma is_zero_spec z : PrimFloat.is_zero z = true -> exists s, Prim2SF z = S754_zero s.
Proof.
  unfold PrimFloat.is_zero. rewrite FloatAxioms.eqb_spec.
  change (Prim2SF PrimFloat.zero) with (S754_zero false).
  destruct (Prim2SF z) as [s|s| |s m e]; simpl; try discriminate;
    try (intros; now exists s); destruct s; discriminate.
Qed.

(** [(1 / z) * b] with [z] a zero: an infinity, or a NaN when [b] is a zero or
    a NaN. *)
Lemma recip_zero_mul_nonfinite z b :
  PrimFloat.is_zero z = true -> nonfinite ((1 / z) * b) = true.
Proof.
  intros Hz. destruct (is_zero_spec z Hz) as [s Hs].
  unfold nonfinite. rewrite FloatAxioms.mul_spec, FloatAxioms.div_spec, Hs.
  assert (H1 : exists m e, Prim2SF 1 = S754_finite false m e)
    by (do 2 eexists; vm_compute; reflexivity).
  destruct H1 as [m [e ->]].
  unfold SF64mul, SF64div. simpl.
  destruct (Prim2SF b) as [?|?| |? ? ?]; reflexivity.
Qed.

End PyNumFacts.

Lemma wave2sf_map_nonzero ws b :
  Forall (fun w => PrimFloat.is_zero (PyNum.val w) = false) ws ->
  exists out,
    mapM (fun e => r <- PyNum.div PyNum.one e ;; Ok (PyNum.mul r b)) ws = Ok out /\
    map PyNum.val out = map (fun w => ((1 / PyNum.val w) * PyNum.val b)%float) ws.
Proof.
  induction 1 as [|w ws Hw _ [out [Hout Hval]]]; [now exists []|].
  cbn [mapM]. rewrite (PyNumFacts.div_nonzero _ _ Hw). cbn [bind]. rewrite Hout.
  cbn [bind]. eexists; split; [reflexivity|]. simpl. rewrite Hval, PyNumFacts.mul_val.
  f_equal. destruct w; reflexivity.
Qed.

Lemma wave2sf_unfold ws ts :
  PyNum.wave2sf ws ts =
  mapM (fun e => r <- PyNum.div PyNum.one e ;; Ok (PyNum.mul r
           (match ts with
            | PyNum.PyF t => PyNum.PyF ((t / 2) / PyNum.np_pi_f)
            | PyNum.NpF t => PyNum.NpF ((t / 2) / PyNum.np_pi_f) end))) ws.
Proof. destruct ts; reflexivity. Qed.

Lemma base_val ts :
  PyNum.val (match ts with
             | PyNum.PyF t => PyNum.PyF ((t / 2) / PyNum.np_pi_f)
             | PyNum.NpF t => PyNum.NpF ((t / 2) / PyNum.np_pi_f) end) =
  ((PyNum.val ts / 2) / PyNum.np_pi_f)%float.
Proof. destruct ts; reflexivity. Qed.

(** Claim C3, as stated, fails: with target size 224 and wave 5 the source
    computes [(1 / 5) * ((224 / 2) / np.pi)], which as a binary64 number is one
    unit in the last place away from [224 / (2 * np.pi) / 5]. *)
Lemma wave2sf_not_bit_exact :
  PyNum.wave2sf [PyNum.PyF 5] (PyNum.PyF 224) = Ok [PyNum.PyF 0x1.c8543cce74becp+2] /\
  0x1.c8543cce74becp+2%float <> (224 / (2 * PyNum.np_pi_f) / 5)%float.
Proof.
  split; [vm_compute; reflexivity|].
  intros H. assert (E : PrimFloat.eqb 0x1.c8543cce74becp+2 0x1.c8543cce74bebp+2 = false)
    by (vm_compute; reflexivity).
  assert (E' : (224 / (2 * PyNum.np_pi_f) / 5)%float = 0x1.c8543cce74bebp+2%float)
    by (vm_compute; reflexivity).
  rewrite H, E' in E. vm_compute in E. discriminate.
Qed.

(** Claim C3, amended. For nonzero waves [wave2sf] never raises and maps each
    wave [w] to the binary64 value of [(1 / w) * ((target_size / 2) / np.pi)];
    evaluated exactly, that is [target_size / (2 * pi) / w]. *)
Theorem wave2sf_elementwise
  (ws : list PyNum.num) (ts : PyNum.num) (wq : list Q) (tq : Q)
  (Hws : Forall (fun w => PrimFloat.is_zero (PyNum.val w) = false) ws)
  (Hwq : Forall (fun w => ~ (w == 0)%Q) wq) :
  (exists out, PyNum.wave2sf ws ts = Ok out /\
     map PyNum.val out =
       map (fun w => ((1 / PyNum.val w) * ((PyNum.val ts / 2) / PyNum.np_pi_f))%float) ws) /\
  Forall2 (fun w x => (x == tq / (2 * Freq.np_pi) / w)%Q) wq (Freq.wave2sf wq tq).
Proof.
  split.
  - rewrite wave2sf_unfold. rewrite <- base_val. now apply wave2sf_map_nonzero.
  - unfold Freq.wave2sf. induction Hwq as [|w wq Hw _ IH]; simpl; constructor; [|exact IH].
    unfold Freq.np_pi. field; repeat split; (exact Hw || (unfold Qeq; simpl; discriminate)).
Qed.

Lemma wave2sf_elementwise_witness :
  Forall (fun w => PrimFloat.is_zero (PyNum.val w) = false) [PyNum.PyF 5; PyNum.NpF 8] /\
  Forall (fun w => ~ (w == 0)%Q) [5%Q] /\
  (exists out, PyNum.wave2sf [PyNum.PyF 5; PyNum.NpF 8] (PyNum.PyF 224) = Ok out /\
     map PyNum.val out =
       map (fun w => ((1 / PyNum.val w) * ((PyNum.val (PyNum.PyF 224) / 2) / PyNum.np_pi_f))%float)
           [PyNum.PyF 5; PyNum.NpF 8]) /\
  Forall2 (fun w x => (x == 224 / (2 * Freq.np_pi) / w)%Q) [5%Q] (Freq.wave2sf [5%Q] 224).
Proof.
  assert (H1 : Forall (fun w => PrimFloat.is_zero (PyNum.val w) = false)
                 [PyNum.PyF 5; PyNum.NpF 8]) by (repeat constructor).
  assert (H2 : Forall (fun w => ~ (w == 0)%Q) [5%Q])
    by (repeat constructor; unfold Qeq; simpl; discriminate).
  split; [exact H1|]. split; [exact H2|].
  exact (wave2sf_elementwise _ (PyNum.PyF 224) _ 224 H1 H2).
Defined.

Lemma wave2sf_map_np ws b :
  Forall (fun w => PyNum.is_np w = true) ws ->
  exists out,
    mapM (fun e => r <- PyNum.div PyNum.one e ;; Ok (PyNum.mul r b)) ws = Ok out /\
    length out = length ws /\
    forall i w, nth_error ws i = Some w -> PrimFloat.is_zero (PyNum.val w) = true ->
      exists o, nth_error out i = Some o /\ PyNum.nonfinite (PyNum.val o) = true.
Proof.
  induction 1 as [|w ws Hw _ [out [Hout [Hlen Hnth]]]].
  - exists []. repeat split. intros [|i] w Hi; discriminate.
  - cbn [mapM]. rewrite (PyNumFacts.div_np _ _ Hw). cbn [bind]. rewrite Hout.
    cbn [bind]. eexists; split; [reflexivity|]. split; [simpl; now rewrite Hlen|].
    intros [|i] w' Hi Hz; simpl in Hi.
    + injection Hi as <-. eexists; split; [reflexivity|].
      rewrite PyNumFacts.mul_val. now apply PyNumFacts.recip_zero_mul_nonfinite.
    + now apply (Hnth i w').
Qed.

Lemma mapM_err_first {A B} (f : A -> result B) e l :
  (forall x, In x l -> forall e', f x = Err e' -> e' = e) ->
  (exists x, In x l /\ f x = Err e) -> mapM f l = Err e.
Proof.
  induction l as [|a l IH]; intros Hall [x [Hx Hfx]]; [destruct Hx|]. simpl.
  case_eq (f a); [intros y Hy|intros e' He'].
  - simpl. rewrite IH; [reflexivity| |].
    + intros z Hz. apply Hall. now right.
    + destruct Hx as [->|Hx]; [congruence|]. eauto.
  - simpl. f_equal. apply (Hall a); [now left|exact He'].
Qed.

(** Claim C9 fails for a Python list: [wave2sf([0.0], 224)] evaluates the
    Python expression [1 / 0.0], which raises [ZeroDivisionError]. *)
Lemma wave2sf_python_zero_raises :
  PyNum.wave2sf [PyNum.PyF 0] (PyNum.PyF 224) = Err ZeroDivisionError.
Proof. vm_compute. reflexivity. Qed.

(** Claim C9, amended. [wave2sf] has no special case for a zero wave. When the
    waves are NumPy [float64] values (as [_extract_data] passes them, from
    [np.unique]) it never raises and every zero wave gives an infinity or a
    NaN at its position; when a wave is a Python float zero, Python's division
    raises [ZeroDivisionError]. *)
Theorem wave2sf_zero_wave (ws : list PyNum.num) (ts : PyNum.num) :
  (Forall (fun w => PyNum.is_np w = true) ws ->
   exists out, PyNum.wave2sf ws ts = Ok out /\ length out = length ws /\
     forall i w, nth_error ws i = Some w -> PrimFloat.is_zero (PyNum.val w) = true ->
       exists o, nth_error out i = Some o /\ PyNum.nonfinite (PyNum.val o) = true) /\
  ((exists z, In (PyNum.PyF z) ws /\ PrimFloat.is_zero z = true) ->
   PyNum.wave2sf ws ts = Err ZeroDivisionError).
Proof.
  rewrite wave2sf_unfold. split.
  - apply wave2sf_map_np.
  - intros [z [Hin Hz]]. apply mapM_err_first.
    + intros x _ e'. destruct (PyNum.div PyNum.one x) eqn:Hd; simpl; [discriminate|].
      intros [= <-]. now apply PyNumFacts.div_err in Hd as [-> _].
    + exists (PyNum.PyF z). split; [exact Hin|]. simpl. now rewrite Hz.
Qed.

Lemma wave2sf_zero_wave_witness :
  (exists out, PyNum.wave2sf [PyNum.NpF 0; PyNum.NpF 4] (PyNum.PyF 224) = Ok out /\
     length out = 2%nat /\
     forall i w, nth_error [PyNum.NpF 0; PyNum.NpF 4] i = Some w ->
       PrimFloat.is_zero (PyNum.val w) = true ->
       exists o, nth_error out i = Some o /\ PyNum.nonfinite (PyNum.val o) = true) /\
  PyNum.wave2sf [PyNum.NpF 4; PyNum.PyF 0] (PyNum.PyF 224) = Err ZeroDivisionError.
Proof.
  split.
  - apply (proj1 (wave2sf_zero_wave [PyNum.NpF 0; PyNum.NpF 4] (PyNum.PyF 224))).
    repeat constructor.
  - apply (proj2 (wave2sf_zero_wave [PyNum.NpF 4; PyNum.PyF 0] (PyNum.PyF 224))).
    exists 0%float. split; [simpl; auto|reflexivity].
Defined.

(** ** Facts about the uniform grid and the interpolation *)

Module FreqFacts.
Import Freq.
Open Scope Q_scope.



Lemma arange_nth start stop step k e :
  nth_error (arange start stop step) k = Some e ->
  e = start + inject_Z (Z.of_nat k) * step.
Proof.
  unfold arange. rewrite nth_error_map.
  destruct (nth_error (seq _ _) k) eqn:Hk; simpl; [|discriminate].
  apply nth_error_In in Hk as Hin. apply in_seq in Hin.
  rewrite nth_error_seq in Hk. destruct (Nat.ltb_spec k (Z.to_nat (Qceiling ((stop - start) / step))));
    [|discriminate]. injection Hk as <-. now intros [= <-].
Qed.











End FreqFacts.




(** Claim C4. In every summary record the frequencies of the unique waves
    ([sf]) and of the uniform grid ([sf_int]) are both [wave2sf] halved
    elementwise. *)
Theorem extract_data_halves_frequencies (m : Trial.matrix) (ts : Q) (rec : Freq.summary)
  (H : Freq._extract_data m ts = Ok rec) :
  Freq.up_wave rec = Trial.unique (Trial.waves m) /\
  Freq.up_sf rec = map (fun x => x / 2) (Freq.wave2sf (Freq.up_wave rec) ts) /\
  exists int_xvals,
    Freq.uniform_sfs (Freq.up_wave rec) (Freq.sens_all rec) ts =
      Ok (int_xvals, Freq.sens_all_int rec) /\
    Freq.up_sf_int rec = map (fun x => x / 2) (Freq.wave2sf int_xvals ts).
Proof.
  unfold Freq._extract_data in H.
  destruct (Trial._extract_sensitivity m) as [all|e]; simpl in H; [|discriminate].
  destruct (Freq.uniform_sfs (Trial.unique (Trial.waves m)) all ts) as [[xs ys]|e] eqn:Hu;
    simpl in H; [|discriminate].
  injection H as <-. simpl. split; [reflexivity|]. split; [reflexivity|].
  exists xs. split; [exact Hu|reflexivity].
Qed.

Lemma extract_data_halves_frequencies_witness :
  exists rec,
    Freq._extract_data
      [Trial.mkRow (1#2) 4 0 0 0; Trial.mkRow (1#10) 4 0 0 0;
       Trial.mkRow (2#5) 8 0 0 0; Trial.mkRow (1#20) 8 0 0 0] 8 = Ok rec /\
    Freq.up_sf rec = map (fun x => x / 2) (Freq.wave2sf [4; 8] 8) /\
    Freq.sens_all rec = [10; 20].
Proof.
  destruct (Freq._extract_data
      [Trial.mkRow (1#2) 4 0 0 0; Trial.mkRow (1#10) 4 0 0 0;
       Trial.mkRow (2#5) 8 0 0 0; Trial.mkRow (1#20) 8 0 0 0] 8) as [rec|e] eqn:E;
    [|vm_compute in E; discriminate].
  exists rec. split; [reflexivity|].
  destruct (extract_data_halves_frequencies _ _ _ E) as [Hw [Hsf _]].
  vm_compute in E. injection E as <-. split; [exact Hsf|reflexivity].
Defined.

(** ** Facts about normalisation *)

Module NormFacts.
Import Norm.
Open Scope Q_scope.





End NormFacts.




(** ** Facts about area labels *)

Module LoaderFacts.
Import Loader.
Open Scope string_scope.

Lemma prefix_spec n h : prefix n h = true <-> exists s, h = n ++ s.
Proof.
  revert n; induction h as [|b h IH]; intros n; destruct n as [|a n].
  - split; [intros _; now exists ""|reflexivity].
  - simpl. split; [discriminate|]. intros [s Hs]. discriminate.
  - split; [intros _; now exists (String b h)|reflexivity].
  - simpl. destruct (Ascii.ascii_dec a b) as [<-|Hab].
    + rewrite IH. split; intros [s Hs]; exists s; [now rewrite Hs|now injection Hs].
    + split; [discriminate|]. intros [s Hs]. injection Hs. congruence.
Qed.

Lemma contains_spec n h : contains n h = true <-> exists p s, h = p ++ n ++ s.
Proof.
  induction h as [|c h IH]; cbn [contains].
  - rewrite Bool.orb_false_r, prefix_spec. split.
    + intros [s Hs]. now exists "", s.
    + intros [p [s Hs]]. destruct p; [|discriminate]. now exists s.
  - rewrite Bool.orb_true_iff, prefix_spec, IH. split.
    + intros [[s Hs]|[p [s Hs]]].
      * now exists "", s.
      * exists (String c p), s. now rewrite Hs.
    + intros [p [s Hs]]. destruct p as [|c' p].
      * left. now exists s.
      * right. injection Hs as -> Hs. now exists p, s.
Qed.

Lemma area_loop_some inds fn l :
  area_loop inds fn = Some l ->
  exists pre i post, inds = (pre ++ i :: post)%list /\ l = area_label i /\
    contains l fn = true /\ forall j, In j pre -> contains (area_label j) fn = false.
Proof.
  induction inds as [|i inds IH]; simpl; [discriminate|].
  case_eq (contains (area_label i) fn); intros Hc.
  - intros [= <-]. exists [], i, inds. repeat split; auto. intros j [].
  - intros Hl. destruct (IH Hl) as [pre [k [post [-> [Hk [Hck Hpre]]]]]].
    exists (i :: pre), k, post. repeat split; auto.
    intros j [<-|Hj]; auto.
Qed.

Lemma area_loop_none inds fn :
  area_loop inds fn = None <-> forall i, In i inds -> contains (area_label i) fn = false.
Proof.
  induction inds as [|i inds IH]; simpl; [split; [intros _ _ []|reflexivity]|].
  case_eq (contains (area_label i) fn); intros Hc.
  - split; [discriminate|]. intros H. rewrite (H i (or_introl eq_refl)) in Hc. discriminate.
  - rewrite IH. split; [intros H j [<-|Hj]; auto|intros H j Hj; auto].
Qed.

Lemma seq_app_inv a n pre i post :
  seq a n = (pre ++ i :: post)%list ->
  (i = a + length pre /\ pre = seq a (length pre) /\ length pre < n)%nat.
Proof.
  revert a n; induction pre as [|p pre IH]; intros a n Hs; destruct n as [|n];
    simpl in Hs; try discriminate.
  - injection Hs as -> _. simpl. repeat split; lia.
  - injection Hs as -> Hs. destruct (IH _ _ Hs) as [Hi [Hp Hl]].
    simpl. repeat split; [lia|now rewrite <- Hp|lia].
Qed.

End LoaderFacts.

(** Claim C7. The labels are "area0" .. "area4"; the result is the first of
    them, by index, that is a substring of the file name, and [None] when
    there is none; the function is total (an [option], no exception). *)
Theorem area_name_first_match (fn : string) :
  map Loader.area_label (seq 0 5) = ["area0"; "area1"; "area2"; "area3"; "area4"]%string /\
  (forall l, Loader._area_name_from_path fn = Some l ->
     exists i, (i < 5)%nat /\ l = Loader.area_label i /\ Loader.contains l fn = true /\
       forall j, (j < i)%nat -> Loader.contains (Loader.area_label j) fn = false) /\
  (Loader._area_name_from_path fn = None <->
     forall i, (i < 5)%nat -> Loader.contains (Loader.area_label i) fn = false) /\
  (forall needle, Loader.contains needle fn = true <->
     exists p s, fn = (p ++ needle ++ s)%string).
Proof.
  split; [reflexivity|]. split; [|split].
  - intros l Hl. destruct (LoaderFacts.area_loop_some _ _ _ Hl)
      as [pre [i [post [Hs [-> [Hc Hpre]]]]]].
    destruct (LoaderFacts.seq_app_inv _ _ _ _ _ Hs) as [Hi [Hp Hlen]].
    exists i. repeat split; [lia|exact Hc|].
    intros j Hj. apply Hpre. rewrite Hp. apply in_seq. lia.
  - unfold Loader._area_name_from_path. rewrite LoaderFacts.area_loop_none.
    split; intros H i Hi; apply H; [apply in_seq; lia|apply in_seq in Hi; lia].
  - intros needle. apply LoaderFacts.contains_spec.
Qed.

Lemma area_name_first_match_witness :
  Loader._area_name_from_path "test_area2.csv" = Some "area2"%string /\
  exists i, (i < 5)%nat /\ "area2"%string = Loader.area_label i /\
    Loader.contains "area2" "test_area2.csv" = true /\
    forall j, (j < i)%nat -> Loader.contains (Loader.area_label j) "test_area2.csv" = false.
Proof.
  assert (H : Loader._area_name_from_path "test_area2.csv" = Some "area2"%string)
    by (vm_compute; reflexivity).
  split; [exact H|].
  exact (proj1 (proj2 (area_name_first_match "test_area2.csv")) _ H).
Defined.

(** ** Facts about the loader *)

Module LoadFacts.
Import Loader.

Lemma dict_set_in {V} (d : list (string * V)) k v k' v' :
  In (k', v') (dict_set d k v) -> In (k', v') d \/ (k', v') = (k, v).
Proof.
  induction d as [|[k0 v0] d IH]; simpl.
  - intros [H|[]]. now right.
  - destruct (String.eqb k k0).
    + intros [H|H]; [now right|left; now right].
    + intros [H|H]; [left; now left|]. destruct (IH H); [left; now right|now right].
Qed.

Lemma mem_in x l : mem x l = true -> In x l.
Proof.
  unfold mem. rewrite existsb_exists. intros [y [Hy Hxy]].
  apply String.eqb_eq in Hxy. now subst.
Qed.

Lemma load_channel_nil f k : csv_files f k = [] -> load_channel f k = Ok [].
Proof. intros H. unfold load_channel. now rewrite H. Qed.

Lemma load_loop_entries f chns dirs acc res :
  load_loop f chns dirs acc = Ok res ->
  (forall k, In k dirs -> In k (channel_dirs f)) ->
  (forall k v, In (k, v) acc -> entry_ok f chns k v) ->
  forall k v, In (k, v) res -> entry_ok f chns k v.
Proof.
  revert acc; induction dirs as [|d dirs IH]; intros acc Hl Hd Hacc; simpl in Hl.
  - injection Hl as <-. exact Hacc.
  - case_eq (skip chns d); intros Hs; rewrite Hs in Hl.
    + apply (IH acc Hl); [intros k Hk; apply Hd; now right|exact Hacc].
    + case_eq (load_channel f d); [intros chn_res Hc|intros e Hc];
        rewrite Hc in Hl; simpl in Hl; [|discriminate].
      apply (IH _ Hl); [intros k Hk; apply Hd; now right|].
      intros k v Hkv. case_eq (Nat.ltb 0 (length chn_res)); intros Hlt; rewrite Hlt in Hkv.
      * destruct (dict_set_in _ _ _ _ _ Hkv) as [Hin|Heq]; [now apply Hacc|].
        injection Heq as -> ->. repeat split; auto.
        -- intros ->. discriminate.
        -- apply Hd. now left.
      * now apply Hacc.
Qed.

End LoadFacts.

(** Claim C6. With a filter [Some l], every channel of the result is in [l],
    whatever other directories exist; every value of the result is non-empty;
    and a channel directory with no [.csv] file is never a key of the result. *)
Theorem load_filters_and_drops_empty (f : Loader.fs) (chns : option (list string))
  (res : Loader.result_set) (H : Loader._load_network_results f chns = Ok res) :
  (forall l, chns = Some l -> forall k, In k (map fst res) -> In k l) /\
  (forall k v, In (k, v) res -> v <> []) /\
  (forall k, Loader.csv_files f k = [] -> ~ In k (map fst res)).
Proof.
  assert (Hent : forall k v, In (k, v) res -> entry_ok f chns k v).
  { apply (LoadFacts.load_loop_entries f chns (Loader.channel_dirs f) [] res H).
    - auto.
    - intros k v []. }
  split; [|split].
  - intros l -> k Hk. apply in_map_iff in Hk. destruct Hk as [[k' v] [Hk Hin]].
    simpl in Hk. subst k'. destruct (Hent k v Hin) as [_ [_ [Hs _]]].
    simpl in Hs. apply LoadFacts.mem_in. now apply Bool.negb_false_iff.
  - intros k v Hin. apply (Hent k v Hin).
  - intros k Hf Hk. apply in_map_iff in Hk. destruct Hk as [[k' v] [Hk Hin]].
    simpl in Hk. subst k'. destruct (Hent k v Hin) as [Hl [Hne _]].
    rewrite (LoadFacts.load_channel_nil f k Hf) in Hl. injection Hl as <-. auto.
Qed.

Lemma load_filters_and_drops_empty_witness :
  Loader._load_network_results demo_tree (Some ["lum"; "empty"]%string)
    = Ok [("lum"%string, [(demo_matrix, Some "area0"%string)])] /\
  (forall l, Some ["lum"; "empty"]%string = Some l ->
     forall k, In k ["lum"%string] -> In k l) /\
  (forall k v, In (k, v) [("lum"%string, [(demo_matrix, Some "area0"%string)])] -> v <> []) /\
  (forall k, Loader.csv_files demo_tree k = [] -> ~ In k ["lum"%string]).
Proof.
  assert (H : Loader._load_network_results demo_tree (Some ["lum"; "empty"]%string)
    = Ok [("lum"%string, [(demo_matrix, Some "area0"%string)])])
    by (vm_compute; reflexivity).
  split; [exact H|]. exact (load_filters_and_drops_empty _ _ _ H).
Defined.

(** ** Facts about the scores *)

Module CompareFacts.
Import Compare.
Local Open Scope R_scope.








End CompareFacts.



(** ** Facts about the rendering loop *)

Module RenderFacts.
Import Render.

Lemma list_set_length {A} (l : list A) i x : length (list_set l i x) = length l.
Proof.
  revert i; induction l as [|y l IH]; intros [|i]; simpl; auto.
Qed.

Lemma marked_list_set (fig : figure) i ax y :
  nth_error fig i = Some ax ->
  filter is_marked (ax_lines y) = filter is_marked (ax_lines ax) ->
  marked (list_set fig i y) = marked fig.
Proof.
  unfold marked. revert i; induction fig as [|z fig IH]; intros [|i]; simpl;
    try discriminate.
  - intros [= ->] Hy. now rewrite !filter_app, Hy.
  - intros Hi Hy. rewrite !filter_app. f_equal. now apply IH.
Qed.

(** Drawing a channel onto an existing figure without a [model_name] adds no
    reference curve and no scored curve, and no subplot. *)
Lemma plot_tests_unscored tests i chn g fig fig' :
  plot_tests tests i chn None (Some g) fig = Ok fig' ->
  marked fig' = marked fig /\ length fig' = length fig.
Proof.
  revert i fig; induction tests as [|[s area] tests IH]; intros i fig; simpl.
  - now intros [= ->].
  - case_eq (nth_error fig i); [intros ax Hax|intros _; discriminate].
    intros Hp. destruct (IH _ _ Hp) as [Hm Hl].
    rewrite list_set_length in Hl. split; [|exact Hl].
    rewrite Hm. apply (marked_list_set _ _ ax); [exact Hax|].
    simpl. rewrite filter_app. simpl. now rewrite app_nil_r.
Qed.

Lemma plot_loop_later items kw f r :
  plot_loop items kw (Some f) = Ok r ->
  exists fig, r = Some fig /\ marked fig = marked f /\ length fig = length f.
Proof.
  revert kw f; induction items as [|[k v] items IH]; intros kw f; simpl.
  - intros [= <-]. now exists f.
  - unfold _plot_chn_csf. simpl.
    case_eq (plot_tests v 0 k None (Some f) f); [intros f2 Hf2|intros e _]; simpl;
      [|discriminate].
    intros Hl. destruct (IH _ _ Hl) as [fig [-> [Hm Hlen]]].
    destruct (plot_tests_unscored _ _ _ _ _ _ Hf2) as [Hm2 Hl2].
    exists fig. split; [reflexivity|]. split; congruence.
Qed.

End RenderFacts.

(** Claim C10. When [plot_csf_areas] returns a figure, the summary has a first
    channel, drawn with the caller's [model_name] and [old_fig]; the next
    channel is drawn onto that figure with [model_name] forced to [None], and
    the final figure has exactly the reference curves and scored curves of the
    first channel's figure, and the same subplots. *)
Theorem later_channels_unscored (f : Loader.fs) (target_size : Q)
  (chns : option (list string)) (kw : Render.kwargs) (fig : Render.figure)
  (H : Render.plot_csf_areas f target_size chns kw = Ok (Some fig)) :
  exists net_results k v rest f1,
    Loader._load_network_results f chns = Ok net_results /\
    Render._extract_network_summary net_results target_size = Ok ((k, v) :: rest) /\
    Render._plot_chn_csf v k (Render.kw_model_name kw) (Render.kw_old_fig kw) = Ok f1 /\
    Render.plot_loop rest kw (Some f1) = Ok (Some fig) /\
    (forall k2 v2 rest2, rest = (k2, v2) :: rest2 ->
       exists f2, Render._plot_chn_csf v2 k2 None (Some f1) = Ok f2 /\
         Render.plot_loop rest2 (Render.mkKwargs None (Some f1)) (Some f2) = Ok (Some fig)) /\
    Render.marked fig = Render.marked f1 /\ length fig = length f1.
Proof.
  unfold Render.plot_csf_areas in H.
  destruct (Loader._load_network_results f chns) as [net_results|e] eqn:Hl;
    simpl in H; [|discriminate].
  destruct (Render._extract_network_summary net_results target_size) as [ns|e] eqn:Hs;
    simpl in H; [|discriminate].
  destruct ns as [|[k v] rest]; simpl in H; [discriminate|].
  destruct (Render._plot_chn_csf v k (Render.kw_model_name kw) (Render.kw_old_fig kw))
    as [f1|e] eqn:Hf1; simpl in H; [|discriminate].
  exists net_results, k, v, rest, f1.
  destruct (RenderFacts.plot_loop_later _ _ _ _ H) as [fig' [Hfig [Hm Hlen]]].
  injection Hfig as <-.
  repeat split; auto.
  intros k2 v2 rest2 ->. simpl in H.
  destruct (Render._plot_chn_csf v2 k2 None (Some f1)) as [f2|e] eqn:Hf2;
    simpl in H; [|discriminate].
  now exists f2.
Qed.

Lemma later_channels_unscored_witness :
  Render.plot_csf_areas demo_tree 8%Q None (Render.mkKwargs (Some "human"%string) None)
    = Ok (Some demo_figure) /\
  exists net_results k v rest f1,
    Loader._load_network_results demo_tree None = Ok net_results /\
    Render._extract_network_summary net_results 8%Q = Ok ((k, v) :: rest) /\
    Render._plot_chn_csf v k (Some "human"%string) None = Ok f1 /\
    Render.plot_loop rest (Render.mkKwargs (Some "human"%string) None) (Some f1)
      = Ok (Some demo_figure) /\
    (forall k2 v2 rest2, rest = (k2, v2) :: rest2 ->
       exists f2, Render._plot_chn_csf v2 k2 None (Some f1) = Ok f2 /\
         Render.plot_loop rest2 (Render.mkKwargs None (Some f1)) (Some f2)
           = Ok (Some demo_figure)) /\
    Render.marked demo_figure = Render.marked f1 /\ length demo_figure = length f1.
Proof.
  assert (H : Render.plot_csf_areas demo_tree 8%Q None
                (Render.mkKwargs (Some "human"%string) None) = Ok (Some demo_figure))
    by (vm_compute; reflexivity).
  split; [exact H|]. exact (later_channels_unscored _ _ _ _ _ H).
Defined.

(* ================================================================= *)
(** * Further properties of the code *)

(** ** Generic facts about [mapM] *)

Module MapMFacts.

Lemma mapM_forall2 {A B} (f : A -> result B) l l' :
  mapM f l = Ok l' -> Forall2 (fun x y => f x = Ok y) l l'.
Proof.
  revert l'; induction l as [|x l IH]; intros l' H; simpl in H.
  - injection H as <-. constructor.
  - destruct (f x) as [y|e] eqn:Hx; simpl in H; [|discriminate].
    destruct (mapM f l) as [ys|e] eqn:Hl; simpl in H; [|discriminate].
    injection H as <-. constructor; [exact Hx|now apply IH].
Qed.

Lemma mapM_all_ok {A B} (f : A -> result B) l :
  (forall x, In x l -> exists y, f x = Ok y) -> exists l', mapM f l = Ok l'.
Proof.
  induction l as [|x l IH]; intros H; simpl; [now exists []|].
  destruct (H x (or_introl eq_refl)) as [y Hy]. rewrite Hy. cbn [bind].
  destruct IH as [l' Hl']; [intros z Hz; apply H; now right|].
  rewrite Hl'. now exists (y :: l').
Qed.


Lemma mapM_length {A B} (f : A -> result B) l l' :
  mapM f l = Ok l' -> length l' = length l.
Proof. intros H. apply mapM_forall2 in H. symmetry. eapply Forall2_length; exact H. Qed.

End MapMFacts.

(** ** Summaries of one test *)

Module SummaryFacts.
Import Trial Freq.
Open Scope Q_scope.


Lemma extract_data_fields m ts rec :
  _extract_data m ts = Ok rec ->
  up_wave rec = unique (waves m) /\
  up_sf rec = halve (wave2sf (unique (waves m)) ts) /\
  _extract_sensitivity m = Ok (sens_all rec) /\
  unique (waves m) <> [] /\
  length (unique (waves m)) = length (sens_all rec) /\
  sens_all_int rec =
    map (fun x => interp1 x (combine (unique (waves m)) (sens_all rec)))
        (map (fun e => ts / 2 / np_pi / e) (grid_steps ts)) /\
  up_sf_int rec = halve (wave2sf (map (fun e => ts / 2 / np_pi / e) (grid_steps ts)) ts).
Proof.
  intros H. unfold _extract_data in H.
  destruct (_extract_sensitivity m) as [all|e] eqn:Hs; cbn [bind] in H; [|discriminate].
  unfold uniform_sfs, interp in H.
  destruct (unique (waves m)) as [|w0 ws] eqn:Hw; cbn [bind] in H; [discriminate|].
  destruct (Nat.eqb_spec (length (w0 :: ws)) (length all)) as [Hlen|_];
    cbn [bind] in H; [|discriminate].
  injection H as <-. cbn. repeat split; auto. discriminate.
Qed.








Lemma grid_steps_pos ts e : In e (grid_steps ts) -> 1 <= e.
Proof.
  intros He. apply In_nth_error in He as [k Hk].
  apply FreqFacts.arange_nth in Hk. rewrite Hk.
  assert (0 <= inject_Z (Z.of_nat k)) by (unfold Qle; simpl; lia).
  nra.
Qed.

End SummaryFacts.


(** Property X2. The [wave] field of a summary is [np.unique] of column 1:
    strictly ascending, made of waves of the matrix, containing (up to
    numeric equality) the wave of every row, with one sensitivity per entry. *)
Theorem summary_waves_unique_sorted (m : Trial.matrix) (ts : Q) (rec : Freq.summary)
  (H : Freq._extract_data m ts = Ok rec) :
  StronglySorted Qlt (Freq.up_wave rec) /\
  (forall w, In w (Freq.up_wave rec) -> exists r, In r m /\ Trial.wave r = w) /\
  (forall r, In r m -> exists w, In w (Freq.up_wave rec) /\ (Trial.wave r == w)%Q) /\
  length (Freq.sens_all rec) = length (Freq.up_wave rec).
Proof.
  destruct (SummaryFacts.extract_data_fields _ _ _ H) as [Hw [_ [_ [_ [Hlen _]]]]].
  rewrite Hw. split; [|split; [|split]].
  - apply TrialFacts.unique_sorted.
  - intros w Hin. apply TrialFacts.unique_in in Hin.
    unfold Trial.waves in Hin. apply in_map_iff in Hin as [r [<- Hr]]. now exists r.
  - intros r Hr. apply TrialFacts.unique_cover. unfold Trial.waves.
    now apply in_map.
  - now rewrite Hlen.
Qed.

Lemma summary_waves_unique_sorted_witness :
  exists rec,
    Freq._extract_data
      [Trial.mkRow (1#2) 8 0 0 0; Trial.mkRow (1#10) 4 0 0 0; Trial.mkRow (1#5) 8 0 0 0] 8
      = Ok rec /\
    StronglySorted Qlt (Freq.up_wave rec) /\ Freq.up_wave rec = [4; 8]%Q.
Proof.
  destruct (Freq._extract_data
      [Trial.mkRow (1#2) 8 0 0 0; Trial.mkRow (1#10) 4 0 0 0; Trial.mkRow (1#5) 8 0 0 0] 8)
    as [rec|e] eqn:E; [|vm_compute in E; discriminate].
  exists rec. split; [reflexivity|].
  split; [exact (proj1 (summary_waves_unique_sorted _ _ _ E))|].
  vm_compute in E. injection E as <-. reflexivity.
Defined.





(** Property X5. [wave2sf] is its own inverse for a fixed nonzero target size:
    mapping nonzero waves to frequencies and the frequencies back gives the
    waves again (evaluated exactly). *)
Theorem wave2sf_involutive (ws : list Q) (ts : Q)
  (Hts : ~ (ts == 0)%Q) (Hws : Forall (fun w => ~ (w == 0)%Q) ws) :
  Forall2 Qeq (Freq.wave2sf (Freq.wave2sf ws ts) ts) ws.
Proof.
  unfold Freq.wave2sf. rewrite map_map.
  induction Hws as [|w ws Hw _ IH]; simpl; constructor; [|exact IH].
  unfold Freq.np_pi. field.
  repeat split; try exact Hw; try exact Hts; unfold Qeq; simpl; try discriminate.
Qed.

Lemma wave2sf_involutive_witness :
  ~ (224 == 0)%Q /\ Forall (fun w => ~ (w == 0)%Q) [4; 8; 16]%Q /\
  Forall2 Qeq (Freq.wave2sf (Freq.wave2sf [4; 8; 16]%Q 224) 224) [4; 8; 16]%Q.
Proof.
  assert (H1 : ~ (224 == 0)%Q) by (unfold Qeq; simpl; discriminate).
  assert (H2 : Forall (fun w => ~ (w == 0)%Q) [4; 8; 16]%Q)
    by (repeat constructor; unfold Qeq; simpl; discriminate).
  split; [exact H1|]. split; [exact H2|]. exact (wave2sf_involutive _ _ H1 H2).
Defined.

(** Property X6. For a nonzero target size the [sf_int] field of a summary is
    the grid of [np.arange(1, target_size/2 + 0.5, 0.5)] halved, [0.5, 0.75,
    1, ...], whatever the trial matrix (evaluated exactly), and the
    interpolated curve has one value per grid point. *)
Theorem summary_sf_int_half_steps (m : Trial.matrix) (ts : Q) (rec : Freq.summary)
  (H : Freq._extract_data m ts = Ok rec) (Hts : ~ (ts == 0)%Q) :
  Forall2 Qeq (Freq.up_sf_int rec) (map (fun e => e / 2) (Freq.grid_steps ts))%Q /\
  length (Freq.sens_all_int rec) = length (Freq.grid_steps ts).
Proof.
  destruct (SummaryFacts.extract_data_fields _ _ _ H)
    as [_ [_ [_ [_ [_ [Hint Hsf]]]]]].
  split; [|rewrite Hint; now rewrite !length_map].
  rewrite Hsf. clear Hsf Hint H. unfold Freq.halve, Freq.wave2sf. rewrite !map_map.
    assert (Hg : forall e, In e (Freq.grid_steps ts) -> (1 <= e)%Q)
      by apply SummaryFacts.grid_steps_pos.
    revert Hg. induction (Freq.grid_steps ts) as [|e g IH]; intros Hg; simpl; constructor.
    + assert (He : ~ (e == 0)%Q) by (pose proof (Hg e (or_introl eq_refl)); intros E; lra).
      unfold Freq.np_pi. field.
      repeat split; try exact He; try exact Hts; unfold Qeq; simpl; try discriminate.
    + apply IH. intros x Hx. apply Hg. now right.
Qed.

Lemma summary_sf_int_half_steps_witness :
  exists rec,
    Freq._extract_data [Trial.mkRow (1#10) 4 0 0 0] 6 = Ok rec /\ ~ (6 == 0)%Q /\
    Freq.grid_steps 6 = [2#2; 3#2; 4#2; 5#2; 6#2]%Q /\
    Forall2 Qeq (Freq.up_sf_int rec) (map (fun e => e / 2) (Freq.grid_steps 6))%Q.
Proof.
  destruct (Freq._extract_data [Trial.mkRow (1#10) 4 0 0 0] 6)
    as [rec|e] eqn:E; [|vm_compute in E; discriminate].
  assert (Hts : ~ (6 == 0)%Q) by (unfold Qeq; simpl; discriminate).
  exists rec. split; [reflexivity|]. split; [exact Hts|]. split; [vm_compute; reflexivity|].
  exact (proj1 (summary_sf_int_half_steps _ _ _ E Hts)).
Defined.



(** ** Summaries of all channels *)

Module NetFacts.
Import Render.

Lemma forall2_map_snd {A B C} (P : A * C -> B * C -> Prop) l l' :
  Forall2 P l l' -> (forall x y, P x y -> snd y = snd x) -> map snd l' = map snd l.
Proof. intros H Hp. induction H; simpl; [reflexivity|]. f_equal; auto. Qed.

Lemma summary_shape nr ts ns :
  _extract_network_summary nr ts = Ok ns ->
  Forall2 (fun kd kt => fst kt = fst kd /\ map snd (snd kt) = map snd (snd kd) /\
             Forall2 (fun md st => Freq._extract_data (fst md) ts = Ok (fst st))
                     (snd kd) (snd kt)) nr ns.
Proof.
  intros H. apply MapMFacts.mapM_forall2 in H.
  eapply Forall2_impl; [|exact H]. intros [k d] [k' t] Hx. cbn beta iota in Hx.
  destruct (mapM _ d) as [tests|e] eqn:Hd; cbn [bind] in Hx; [|discriminate].
  injection Hx as <- <-. apply MapMFacts.mapM_forall2 in Hd. simpl.
  split; [reflexivity|]. split.
  - apply (forall2_map_snd _ _ _ Hd). intros [m a] [s a'] Hma.
    destruct (Freq._extract_data m ts); cbn [bind] in Hma; [|discriminate].
    now injection Hma as _ <-.
  - eapply Forall2_impl; [|exact Hd]. intros [m a] [s a'] Hma. simpl.
    destruct (Freq._extract_data m ts); cbn [bind] in Hma; [|discriminate].
    now injection Hma as <- _.
Qed.





End NetFacts.

(** ** The loader *)

Module LoadMore.
Import Loader.
Local Open Scope list_scope.

Lemma dict_set_fresh {V} (d : list (string * V)) k v :
  ~ In k (map fst d) -> dict_set d k v = d ++ [(k, v)].
Proof.
  induction d as [|[k' v'] d IH]; simpl; [reflexivity|]. intros Hk.
  destruct (String.eqb_spec k k') as [->|_]; [exfalso; now apply Hk; left|].
  f_equal. apply IH. intros H; apply Hk; now right.
Qed.

Lemma load_channel_ok f k v :
  load_channel f k = Ok v ->
  mapM snd (csv_files f k) = Ok (map fst v) /\
  map snd v = map (fun p => _area_name_from_path (fst p)) (csv_files f k).
Proof.
  unfold load_channel. generalize (csv_files f k) as files. intros files.
  revert v; induction files as [|[fn parsed] files IH]; intros v H; simpl in H.
  - injection H as <-. split; reflexivity.
  - destruct parsed as [mat|e]; cbn [bind] in H; [|discriminate].
    destruct (mapM _ files) as [rest|e] eqn:Hr; cbn [bind] in H; [|discriminate].
    injection H as <-. destruct (IH _ eq_refl) as [H1 H2]. simpl.
    rewrite H1. cbn [bind]. split; [reflexivity|]. now rewrite H2.
Qed.

Lemma load_channel_length f k v : load_channel f k = Ok v -> length v = length (csv_files f k).
Proof. apply MapMFacts.mapM_length. Qed.

Lemma load_loop_keys f chns dirs acc res :
  NoDup dirs -> (forall d, In d dirs -> ~ In d (map fst acc)) ->
  load_loop f chns dirs acc = Ok res ->
  map fst res = map fst acc ++
    filter (fun d => negb (skip chns d) && Nat.ltb 0 (length (csv_files f d)))%bool dirs.
Proof.
  revert acc; induction dirs as [|d dirs IH]; intros acc Hnd Hfresh H; simpl in H.
  - injection H as <-. simpl. now rewrite app_nil_r.
  - inversion Hnd as [|? ? Hd Hnd']; subst. simpl.
    destruct (skip chns d) eqn:Hs; simpl.
    + apply IH; auto. intros x Hx. apply Hfresh. now right.
    + destruct (load_channel f d) as [chn_res|e] eqn:Hc; cbn [bind] in H; [|discriminate].
      rewrite (load_channel_length _ _ _ Hc) in H.
      destruct (Nat.ltb 0 (length (csv_files f d))).
      * rewrite dict_set_fresh in H by (apply Hfresh; now left).
        rewrite (IH (acc ++ [(d, chn_res)]) Hnd' ltac:(intros x Hx; rewrite map_app, in_app_iff; simpl;
                     intros [Hin|[Heq|[]]]; [exact (Hfresh x (or_intror Hx) Hin)|];
                     simpl in Heq; subst; contradiction) H).
        rewrite map_app, <- app_assoc. reflexivity.
      * apply IH; auto. intros x Hx. apply Hfresh. now right.
Qed.

Lemma load_loop_ok f chns dirs acc :
  (forall d, In d dirs -> skip chns d = false ->
     forall p, In p (csv_files f d) -> exists m, snd p = Ok m) ->
  exists res, load_loop f chns dirs acc = Ok res.
Proof.
  revert acc; induction dirs as [|d dirs IH]; intros acc H; simpl; [now exists acc|].
  destruct (skip chns d) eqn:Hs.
  - apply IH. intros x Hx. apply H. now right.
  - destruct (MapMFacts.mapM_all_ok
      (fun '(file_name, parsed) =>
         let area_name := _area_name_from_path file_name in
         mat <- parsed ;; Ok (mat, area_name)) (csv_files f d)) as [v Hv].
    + intros [fn parsed] Hp. destruct (H d (or_introl eq_refl) Hs _ Hp) as [m Hm].
      simpl in Hm. subst parsed. simpl. now eexists.
    + assert (Hc : load_channel f d = Ok v) by exact Hv.
      rewrite Hc. cbn [bind]. apply IH.
      intros x Hx. apply H. now right.
Qed.

Lemma mapM_some_err {A B} (g : A -> result B) l x e :
  In x l -> g x = Err e -> exists e', mapM g l = Err e'.
Proof.
  induction l as [|y l IH]; intros Hx Hg; [destruct Hx|]. simpl.
  destruct Hx as [->|Hx].
  - rewrite Hg. now exists e.
  - destruct (g y) as [z|e']; cbn [bind]; [|now exists e'].
    destruct (IH Hx Hg) as [e' He']. rewrite He'. now exists e'.
Qed.

Lemma load_loop_err f chns dirs acc d p e :
  In d dirs -> skip chns d = false -> In p (csv_files f d) -> snd p = Err e ->
  exists e', load_loop f chns dirs acc = Err e'.
Proof.
  revert acc; induction dirs as [|d0 dirs IH]; intros acc Hd Hs Hp He; [destruct Hd|].
  simpl. destruct (skip chns d0) eqn:Hs0.
  - destruct Hd as [->|Hd]; [congruence|]. now apply IH.
  - destruct (load_channel f d0) as [v|e'] eqn:Hc; cbn [bind]; [|now exists e'].
    destruct Hd as [->|Hd]; [|now apply IH].
    exfalso. destruct p as [fn parsed]. simpl in He. subst parsed.
    destruct (mapM_some_err (fun '(file_name, parsed) =>
         let area_name := _area_name_from_path file_name in
         mat <- parsed ;; Ok (mat, area_name)) _ _ e Hp eq_refl) as [e' He'].
    assert (Hc' : load_channel f d = Err e') by exact He'.
    congruence.
Qed.

Lemma load_loop_same f f' chns dirs acc :
  (forall d, skip chns d = false -> csv_files f' d = csv_files f d) ->
  load_loop f' chns dirs acc = load_loop f chns dirs acc.
Proof.
  intros Hf. revert acc; induction dirs as [|d dirs IH]; intros acc; simpl; [reflexivity|].
  destruct (skip chns d) eqn:Hs; [apply IH|].
  unfold load_channel. rewrite (Hf d Hs). destruct (mapM _ _); cbn [bind]; [apply IH|reflexivity].
Qed.

End LoadMore.

(** ** The rendering loop *)

Module PlotFacts.
Import Render.

Lemma plot_tests_new tests i chn mn fig :
  plot_tests tests i chn mn None fig =
  Ok (fig ++ map (fun t => mkAxis (snd t) (new_lines chn mn)) tests).
Proof.
  revert i fig; induction tests as [|[s area] tests IH]; intros i fig; simpl.
  - now rewrite app_nil_r.
  - rewrite IH, <- app_assoc. reflexivity.
Qed.

Lemma list_set_app {A} (pre post : list A) x y :
  list_set (pre ++ x :: post) (length pre) y = pre ++ y :: post.
Proof. induction pre as [|z pre IH]; simpl; [reflexivity|now rewrite IH]. Qed.

Lemma plot_tests_old tests chn mn h pre post :
  plot_tests tests (length pre) chn mn (Some h) (pre ++ post) =
  if Nat.leb (length tests) (length post)
  then Ok (pre ++ map (fun '(t, ax) => mkAxis (snd t) (ax_lines ax ++ new_lines chn mn))
                      (combine tests post) ++ skipn (length tests) post)
  else Err IndexError.
Proof.
  revert pre post; induction tests as [|[s area] tests IH]; intros pre post.
  - simpl. reflexivity.
  - cbn [plot_tests]. rewrite nth_error_app2 by lia. rewrite Nat.sub_diag.
    destruct post as [|ax post]; [reflexivity|]. cbn [nth_error].
    rewrite list_set_app.
    replace (S (length pre)) with (length (pre ++ [mkAxis area (ax_lines ax ++ new_lines chn mn)]))
      by (rewrite length_app; simpl; lia).
    replace (pre ++ mkAxis area (ax_lines ax ++ new_lines chn mn) :: post)
      with ((pre ++ [mkAxis area (ax_lines ax ++ new_lines chn mn)]) ++ post)
      by (now rewrite <- app_assoc).
    rewrite IH. simpl length. cbn [Nat.leb].
    destruct (Nat.leb (length tests) (length post)); [|reflexivity].
    rewrite <- app_assoc. reflexivity.
Qed.





End PlotFacts.

(** Property X8. [_extract_network_summary] keeps the channels of the loaded
    results in their order and, for each channel, its tests in their order:
    each test's summary is [_extract_data] of its matrix, next to the test's
    unchanged area label. *)
Theorem network_summary_shape (nr : Loader.result_set) (ts : Q)
  (ns : list (string * list (Freq.summary * option string)))
  (H : Render._extract_network_summary nr ts = Ok ns) :
  map fst ns = map fst nr /\
  Forall2 (fun kd kt => map snd (snd kt) = map snd (snd kd) /\
             Forall2 (fun md st => Freq._extract_data (fst md) ts = Ok (fst st))
                     (snd kd) (snd kt)) nr ns.
Proof.
  pose proof (NetFacts.summary_shape _ _ _ H) as Hs. split.
  - clear H. induction Hs as [|x y l l' [Hk _] _ IH]; simpl; [reflexivity|]. now rewrite Hk, IH.
  - eapply Forall2_impl; [|exact Hs]. intros kd kt [_ Hx]. exact Hx.
Qed.

Lemma network_summary_shape_witness :
  exists ns,
    Render._extract_network_summary
      [("lum"%string, [(demo_matrix, Some "area0"%string); (demo_matrix, None)])] 8 = Ok ns /\
    map fst ns = ["lum"%string] /\
    Forall2 (fun kd kt => map snd (snd kt) = map snd (snd kd) /\
               Forall2 (fun md st => Freq._extract_data (fst md) 8 = Ok (fst st))
                       (snd kd) (snd kt))
      [("lum"%string, [(demo_matrix, Some "area0"%string); (demo_matrix, None)])] ns.
Proof.
  destruct (Render._extract_network_summary
      [("lum"%string, [(demo_matrix, Some "area0"%string); (demo_matrix, None)])] 8)
    as [ns|e] eqn:E; [|vm_compute in E; discriminate].
  exists ns. split; [reflexivity|]. exact (network_summary_shape _ _ _ E).
Defined.


(** Property X10. When the channel directories are distinct (as glob lists
    them), the loaded dictionary has, in listing order, exactly the
    directories that pass the filter and hold at least one [.csv] file; the
    value of each is the parsed matrices of its files in order, each with the
    area label of its file name. *)
Theorem loaded_channels_in_listing_order (f : Loader.fs) (chns : option (list string))
  (res : Loader.result_set)
  (Hnd : NoDup (Loader.channel_dirs f))
  (H : Loader._load_network_results f chns = Ok res) :
  map fst res =
    filter (fun d => negb (Loader.skip chns d) && Nat.ltb 0 (length (Loader.csv_files f d)))%bool
           (Loader.channel_dirs f) /\
  (forall k v, In (k, v) res ->
     mapM snd (Loader.csv_files f k) = Ok (map fst v) /\
     map snd v = map (fun p => Loader._area_name_from_path (fst p)) (Loader.csv_files f k)).
Proof.
  split.
  - exact (LoadMore.load_loop_keys f chns _ [] res Hnd (fun _ _ H => H) H).
  - intros k v Hkv.
    destruct (LoadFacts.load_loop_entries f chns (Loader.channel_dirs f) [] res H
                (fun _ H => H) (fun _ _ H => match H with end) k v Hkv) as [Hc _].
    now apply LoadMore.load_channel_ok.
Qed.

Lemma loaded_channels_in_listing_order_witness :
  NoDup (Loader.channel_dirs demo_tree) /\
  Loader._load_network_results demo_tree None =
    Ok [("lum"%string, [(demo_matrix, Some "area0"%string)]);
        ("rg"%string, [(demo_matrix, Some "area0"%string)]);
        ("yb"%string, [(demo_matrix, Some "area0"%string)])] /\
  map fst [("lum"%string, [(demo_matrix, Some "area0"%string)]);
           ("rg"%string, [(demo_matrix, Some "area0"%string)]);
           ("yb"%string, [(demo_matrix, Some "area0"%string)])] =
    filter (fun d => negb (Loader.skip None d) &&
                     Nat.ltb 0 (length (Loader.csv_files demo_tree d)))%bool
           (Loader.channel_dirs demo_tree).
Proof.
  assert (Hnd : NoDup (Loader.channel_dirs demo_tree))
    by (repeat constructor; simpl; intuition discriminate).
  assert (H : Loader._load_network_results demo_tree None =
    Ok [("lum"%string, [(demo_matrix, Some "area0"%string)]);
        ("rg"%string, [(demo_matrix, Some "area0"%string)]);
        ("yb"%string, [(demo_matrix, Some "area0"%string)])])
    by (vm_compute; reflexivity).
  split; [exact Hnd|]. split; [exact H|].
  exact (proj1 (loaded_channels_in_listing_order _ _ _ Hnd H)).
Defined.

(** Property X11. Loading fails only on a file that cannot be parsed: if every
    [.csv] file of every directory that passes the filter parses, the loader
    returns a dictionary; if one of them does not parse, the whole load fails,
    whatever the other directories hold. *)
Theorem load_fails_only_on_unparsable_kept_file (f : Loader.fs) (chns : option (list string)) :
  ((forall d, In d (Loader.channel_dirs f) -> Loader.skip chns d = false ->
      forall p, In p (Loader.csv_files f d) -> exists m, snd p = Ok m) ->
   exists res, Loader._load_network_results f chns = Ok res) /\
  (forall d p e, In d (Loader.channel_dirs f) -> Loader.skip chns d = false ->
     In p (Loader.csv_files f d) -> snd p = Err e ->
     exists e', Loader._load_network_results f chns = Err e').
Proof.
  split.
  - intros H. now apply LoadMore.load_loop_ok.
  - intros d p e Hd Hs Hp He. exact (LoadMore.load_loop_err _ _ _ _ _ _ _ Hd Hs Hp He).
Qed.

(** Property X12. The loader never reads a directory the filter excludes: two
    directory trees with the same channel directories whose kept directories
    hold the same files give the same result, whatever the excluded
    directories hold (unparsable files included). *)
Theorem loader_ignores_filtered_out_dirs (f f' : Loader.fs) (chns : option (list string))
  (Hd : Loader.channel_dirs f' = Loader.channel_dirs f)
  (Hf : forall d, Loader.skip chns d = false -> Loader.csv_files f' d = Loader.csv_files f d) :
  Loader._load_network_results f' chns = Loader._load_network_results f chns.
Proof.
  unfold Loader._load_network_results. rewrite Hd. now apply LoadMore.load_loop_same.
Qed.

Lemma loader_ignores_filtered_out_dirs_witness :
  let broken := Loader.mkFs (Loader.channel_dirs demo_tree)
                  (fun d => if String.eqb d "rg" then [("bad.csv"%string, Err ParseError)]
                            else Loader.csv_files demo_tree d) in
  Loader._load_network_results broken (Some ["lum"]%string) =
    Ok [("lum"%string, [(demo_matrix, Some "area0"%string)])] /\
  Loader._load_network_results broken (Some ["lum"]%string) =
    Loader._load_network_results demo_tree (Some ["lum"]%string).
Proof.
  intros broken. split; [vm_compute; reflexivity|].
  apply loader_ignores_filtered_out_dirs; [reflexivity|].
  intros d Hs. simpl. destruct (String.eqb_spec d "rg") as [->|]; [discriminate|reflexivity].
Defined.

(** Property X13. Without an [old_fig] and without a [model_name],
    [_plot_chn_csf] draws a new figure with one subplot per test, in order,
    each titled with the test's area label and holding the channel's curve
    alone, with no score in its label. *)
Theorem plot_chn_csf_new_figure (tests : list (Freq.summary * option string))
  (chn : string) :
  Render._plot_chn_csf tests chn None None =
  Ok (map (fun t => Render.mkAxis (snd t) [Render.ChnLine chn false]) tests).
Proof. exact (PlotFacts.plot_tests_new tests 0 chn None []). Qed.

(** Property X14. With an [old_fig] of [n] subplots and no [model_name] (as
    [plot_csf_areas] calls it for every channel after the first),
    [_plot_chn_csf] raises [IndexError] when the channel has more than [n]
    tests; otherwise test [i] retitles subplot [i] and appends the channel's
    unscored curve after the lines already there, and the subplots past the
    last test are left as they were. *)
Theorem plot_chn_csf_onto_old_figure (tests : list (Freq.summary * option string))
  (chn : string) (g : Render.figure) :
  Render._plot_chn_csf tests chn None (Some g) =
  if Nat.leb (length tests) (length g)
  then Ok (map (fun '(t, ax) => Render.mkAxis (snd t) (Render.ax_lines ax ++ [Render.ChnLine chn false]))
               (combine tests g) ++ skipn (length tests) g)
  else Err IndexError.
Proof. exact (PlotFacts.plot_tests_old tests chn None g [] g). Qed.

(** Property X15. [plot_csf_areas] returns [None] exactly when loading
    succeeds with no channel at all (every directory filtered out or without
    [.csv] files); in every other successful run it returns a figure. *)
Theorem plot_csf_areas_none_iff_nothing_loaded (f : Loader.fs) (ts : Q)
  (chns : option (list string)) (kw : Render.kwargs) :
  Render.plot_csf_areas f ts chns kw = Ok None <-> Loader._load_network_results f chns = Ok [].
Proof.
  unfold Render.plot_csf_areas. split.
  - destruct (Loader._load_network_results f chns) as [nr|e]; cbn [bind]; [|discriminate].
    destruct (Render._extract_network_summary nr ts) as [ns|e] eqn:Hs; cbn [bind];
      [|discriminate].
    destruct ns as [|[k v] ns].
    + intros _. apply MapMFacts.mapM_length in Hs. destruct nr; [reflexivity|discriminate].
    + cbn [Render.plot_loop].
      destruct (Render._plot_chn_csf _ _ _ _) as [f1|e]; cbn [bind]; [|discriminate].
      intros Hl. destruct (RenderFacts.plot_loop_later _ _ _ _ Hl) as [fig [Hf _]].
      discriminate.
  - intros ->. reflexivity.
Qed.



Lemma string_append_empty_r (s : string) : (s ++ "")%string = s.
Proof. induction s as [|c s IH]; simpl; [reflexivity|now rewrite IH]. Qed.

(** Property X17. [_chn_plot_params] labels a channel with its own name,
    padded with three spaces for [rg] and [yb] only; it gives an empty style
    exactly for channels other than [lum], [rg] and [yb]; and every style it
    gives draws a solid line ([linestyle='-']). *)
Theorem chn_plot_params_label_and_style (chn : string) :
  (exists pad, fst (Style._chn_plot_params chn) = (chn ++ pad)%string /\
               (pad = ""%string \/ pad = "   "%string) /\
               (pad = "   "%string <-> In chn ["rg"; "yb"]%string)) /\
  (snd (Style._chn_plot_params chn) = [] <-> ~ In chn ["lum"; "rg"; "yb"]%string) /\
  (snd (Style._chn_plot_params chn) <> [] ->
   In ("linestyle"%string, "-"%string) (snd (Style._chn_plot_params chn))).
Proof.
  unfold Style._chn_plot_params, Loader.mem. simpl existsb. rewrite orb_false_r.
  destruct (String.eqb_spec chn "lum") as [->|Hl];
    [|destruct (String.eqb_spec chn "rg") as [->|Hr];
      [|destruct (String.eqb_spec chn "yb") as [->|Hy]]]; simpl.
  - split; [exists ""%string; rewrite ?string_append_empty_r; intuition discriminate|].
    split; [split; [discriminate|intros H; exfalso; auto]|auto 10].
  - split; [exists "   "%string; intuition (reflexivity || discriminate)|].
    split; [split; [discriminate|intros H; exfalso; auto]|auto 10].
  - split; [exists "   "%string; intuition (reflexivity || discriminate)|].
    split; [split; [discriminate|intros H; exfalso; auto]|auto 10].
  - split; [exists ""%string; rewrite ?string_append_empty_r; intuition congruence|].
    split; [split; [intros _ [?|[?|[?|[]]]]; congruence|reflexivity]|].
    intros H; exfalso; auto.
Qed.
